(** * A shallow embedding of the RAG chatbot notebook

    The notebook [Retrieval_Augmented_Generation_RAG_Chatbot.ipynb] is a
    sequence of cells that load markdown files, tag them with a [doc_type],
    split them into chunks, rebuild a vector store and answer questions
    through a conversation chain.  The cells are embedded cell by cell:
    Python objects that are mutated in place live in an explicit heap,
    exceptions are an explicit result, and the calls into third-party
    packages are either parameters of a [Section] or small models whose
    doc comments say where their behaviour comes from. *)

From stdpp Require Import gmap strings list fin_maps sorting.
From Stdlib Require Import Ascii.

Set Warnings "-register-all".

(** ** Exceptions and the state-and-exception monad *)

Inductive exn : Type :=
| ValueError (msg : string)
| RuntimeError (msg : string)
| KeyError (key : string)
| ServiceError (msg : string).

Inductive result (A : Type) : Type :=
| Ok (a : A)
| Raise (e : exn).
Arguments Ok {A} a.
Arguments Raise {A} e.

(** A Python statement sequence over a mutable state [S]: an exception
    stops the sequence but does not roll the state back. *)
Definition M (S A : Type) : Type := S → result A * S.

Definition ret {S A : Type} (a : A) : M S A := λ s, (Ok a, s).

Definition raise {S A : Type} (e : exn) : M S A := λ s, (Raise e, s).

Definition bind {S A B : Type} (m : M S A) (k : A → M S B) : M S B :=
  λ s, match m s with
       | (Ok a, s') => k a s'
       | (Raise e, s') => (Raise e, s')
       end.

Definition lift {S A : Type} (r : result A) : M S A := λ s, (r, s).

Definition get {S : Type} : M S S := λ s, (Ok s, s).

Definition modify {S : Type} (f : S → S) : M S unit := λ s, (Ok tt, f s).

Notation "x <- m ;; k" := (bind m (λ x, k))
  (at level 100, m at next level, right associativity).
Notation "m ;;; k" := (bind m (λ _, k))
  (at level 100, right associativity).

(** A list comprehension [[f(x) for x in l]] whose body has effects. *)
Fixpoint mapM {S A B : Type} (f : A → M S B) (l : list A) : M S (list B) :=
  match l with
  | [] => ret []
  | x :: l' => y <- f x ;; ys <- mapM f l' ;; ret (y :: ys)
  end.

(** [for x in l: acc.extend(body(x))], started from [acc]. *)
Fixpoint for_extend {S A B : Type} (body : A → M S (list B)) (l : list A)
    (acc : list B) : M S (list B) :=
  match l with
  | [] => ret acc
  | x :: l' => ys <- body x ;; for_extend body l' (acc ++ ys)
  end.

(** ** POSIX paths: [os.path.basename] and [os.path.dirname] *)

Module Path.

Definition is_sep (c : ascii) : bool := Ascii.eqb c "/"%char.

Fixpoint has_sep (p : string) : bool :=
  match p with
  | EmptyString => false
  | String c r => is_sep c || has_sep r
  end.

(** [p[p.rfind('/') + 1:]] *)
Fixpoint basename (p : string) : string :=
  match p with
  | EmptyString => EmptyString
  | String c r =>
      if has_sep r then basename r
      else if is_sep c then r else String c r
  end.

(** [p[:p.rfind('/') + 1]] *)
Fixpoint head (p : string) : string :=
  match p with
  | EmptyString => EmptyString
  | String c r =>
      if has_sep r then String c (head r)
      else if is_sep c then String c EmptyString else EmptyString
  end.

Fixpoint all_sep (p : string) : bool :=
  match p with
  | EmptyString => true
  | String c r => is_sep c && all_sep r
  end.

(** [s.rstrip('/')] *)
Fixpoint rstrip_sep (s : string) : string :=
  match s with
  | EmptyString => EmptyString
  | String c r =>
      match rstrip_sep r with
      | EmptyString => if is_sep c then EmptyString else String c EmptyString
      | r' => String c r'
      end
  end.

(** [posixpath.dirname]: the head, with trailing separators removed unless
    the head consists of separators only. *)
Definition dirname (p : string) : string :=
  let h := head p in
  if negb (String.eqb h "") && negb (all_sep h) then rstrip_sep h else h.

(** [os.path.join(d, name)] for a relative [name] and a [d] that does not
    end in a separator. *)
Definition join (d name : string) : string := d +:+ "/" +:+ name.

(** The name of the folder a file lies in. *)
Definition parent_folder (p : string) : string := basename (dirname p).

(** [PurePosixPath(p).relative_to(d)]: [p] without the leading [d + "/"];
    [None] when [p] does not lie below [d]. *)
Fixpoint relative_to (d p : string) : option string :=
  match d, p with
  | EmptyString, String c r => if is_sep c then Some r else None
  | String a d', String c r => if Ascii.eqb a c then relative_to d' r else None
  | _, EmptyString => None
  end.

(** The first component of a relative path, and what follows its
    separator. *)
Fixpoint first_part (p : string) : string :=
  match p with
  | EmptyString => EmptyString
  | String c r => if is_sep c then EmptyString else String c (first_part r)
  end.

Fixpoint after_first_part (p : string) : string :=
  match p with
  | EmptyString => EmptyString
  | String c r => if is_sep c then r else after_first_part r
  end.

(** A directory entry's name: not empty, no separator in it. *)
Definition valid_name (name : string) : bool :=
  negb (String.eqb name "") && negb (has_sep name).

End Path.

(** ** The file system under the working directory *)

(** A regular file is modelled by its name and the text a reader decodes
    from it; [Unreadable] is a regular file that cannot be read or
    decoded. *)
Inductive node : Type :=
| File (name : string) (content : string)
| Unreadable (name : string)
| Dir (name : string) (children : list node).

Definition node_name (n : node) : string :=
  match n with
  | File name _ => name
  | Unreadable name => name
  | Dir name _ => name
  end.

Definition is_hidden (name : string) : bool := String.prefix "." name.

Fixpoint ends_with (suffix s : string) : bool :=
  String.eqb s suffix ||
  match s with
  | EmptyString => false
  | String _ r => ends_with suffix r
  end.

(** Entries of a real directory have valid names, all the way down. *)
Fixpoint wf_node (n : node) : bool :=
  Path.valid_name (node_name n) &&
  match n with
  | File _ _ => true
  | Unreadable _ => true
  | Dir _ children => forallb wf_node children
  end.

Definition wf_fs (cwd : list node) : bool := forallb wf_node cwd.

(** [os.scandir(d)] for a directory [d] of the working directory; [None]
    when [d] does not exist or is not a directory. *)
Definition scandir (cwd : list node) (d : string) : option (list node) :=
  match List.find (λ n, String.eqb (node_name n) d) cwd with
  | Some (Dir _ children) => Some children
  | _ => None
  end.

(** [glob.glob(d + "/*")]: the entries of [d] whose names do not start with
    a dot, each as its path (paired here with the entry the path names);
    the empty list when [d] cannot be listed. *)
Definition glob_star (cwd : list node) (d : string) : list (string * node) :=
  match scandir cwd d with
  | None => []
  | Some children =>
      map (λ n, (Path.join d (node_name n), n))
          (List.filter (λ n, negb (is_hidden (node_name n))) children)
  end.

(** ** Documents and the object heap *)

Record Document : Type := mkDocument {
  page_content : string;
  metadata : gmap string string
}.

(** Python objects are reached through references; the heap maps a
    reference to the object's current value. *)
Abbreviation ref := nat (only parsing).
Abbreviation heap := (list Document) (only parsing).

Definition alloc (d : Document) : M heap ref :=
  λ h, (Ok (length h), h ++ [d]).

Definition read (r : ref) : M heap Document :=
  λ h, match h !! r with
       | Some d => (Ok d, h)
       | None => (Raise (RuntimeError "dangling reference"), h)
       end.

(** [doc.metadata[key] = value] on the object value. *)
Definition set_metadata (key value : string) (d : Document) : Document :=
  mkDocument (page_content d) (<[key := value]> (metadata d)).

(** ** Cell "Split Document into Smaller Chunks" *)

Module Ingest.

Definition knowledge_base : string := "knowledge-base".

(** [folders = glob.glob("knowledge-base/*")] *)
Definition folders (cwd : list node) : list (string * node) :=
  glob_star cwd knowledge_base.

(** [add_metadata(doc, doc_type)]: writes one key of the document's own
    metadata dictionary and returns the reference it was given. *)
Definition add_metadata (doc : ref) (doc_type : string) : M heap ref :=
  modify (alter (set_metadata "doc_type" doc_type) doc) ;;; ret doc.

(** Modelled from the spec: the Document Loader of section 4.1 is the
    [DirectoryLoader] and [TextLoader] of a package that is not part of the
    repository.  It "recursively collects files matching a markdown
    extension filter": with [glob="**/*.md"], the regular files at any
    depth below the folder whose name ends in [.md], entries whose name
    starts with a dot left out.  A folder's own files come first, in
    listing order, then those of its sub-folders, one sub-folder after the
    other.  [path] is the path of [n]; the result pairs each file's path
    with its text, [None] for a file that cannot be read. *)
Fixpoint rglob_md (path : string) (n : node)
    : list (string * option string) :=
  match n with
  | File name content =>
      if ends_with ".md" name then [(path, Some content)] else []
  | Unreadable name =>
      if ends_with ".md" name then [(path, None)] else []
  | Dir _ children =>
      flat_map (λ c, if is_hidden (node_name c) then []
                     else match c with
                          | Dir _ _ => []
                          | _ => rglob_md (Path.join path (node_name c)) c
                          end)
               children
      ++ flat_map (λ c, if is_hidden (node_name c) then []
                        else match c with
                             | Dir _ _ =>
                                 rglob_md (Path.join path (node_name c)) c
                             | _ => []
                             end)
                  children
  end.

(** Modelled from the spec: [TextLoader(path, ...).load()] "reads their
    text" into a new Document whose metadata holds the source path (the
    data model's "source path, raw text"), under the key [source].  The
    call asks for no error to be passed over, so a file that cannot be read
    makes the load raise. *)
Definition TextLoader_load (file : string * option string) : M heap ref :=
  match file.2 with
  | None => raise (RuntimeError ("Error loading " +:+ file.1))
  | Some text => alloc (mkDocument text {[ "source" := file.1 ]})
  end.

(** Modelled from the spec: [DirectoryLoader(folder, glob="**/*.md",
    loader_cls=TextLoader, loader_kwargs=text_loader_kwargs).load()] loads
    every collected file of the folder.  [folder] comes from [glob.glob],
    so it exists, but it may be a regular file, which is not a directory
    to load from: the loader raises, naming the path. *)
Definition DirectoryLoader_load (folder : string * node) : M heap (list ref) :=
  match folder.2 with
  | Dir _ _ => mapM TextLoader_load (rglob_md folder.1 folder.2)
  | _ =>
      raise (ValueError
               ("Expected directory, got file: '" +:+ folder.1 +:+ "'"))
  end.

(** The body of [for folder in folders]. *)
Definition load_folder (folder : string * node) : M heap (list ref) :=
  let doc_type := Path.basename folder.1 in
  folder_docs <- DirectoryLoader_load folder ;;
  mapM (λ doc, add_metadata doc doc_type) folder_docs.

(** [documents = []; for folder in folders: documents.extend(...)] *)
Definition load_documents (cwd : list node) : M heap (list ref) :=
  for_extend load_folder (folders cwd) [].

Section Splitter.

(** [text_splitter.split_text]: how [CharacterTextSplitter(chunk_size=1000,
    chunk_overlap=200)] cuts one text is decided inside the package; the
    cell is embedded for any such function. *)
Variable split_text : string → list string.

(** Modelled from the spec: the Chunker of section 4.2
    ([text_splitter.split_documents(documents)], package code) outputs an
    "ordered sequence of Chunks preserving source Document metadata":
    every piece of a document's text becomes a new document that carries
    a copy of that document's metadata. *)
Definition split_document (doc : ref) : M heap (list ref) :=
  d <- read doc ;;
  mapM (λ chunk, alloc (mkDocument chunk (metadata d)))
       (split_text (page_content d)).

Definition split_documents (documents : list ref) : M heap (list ref) :=
  for_extend split_document documents [].

(** The cell: [documents] and [chunks]. *)
Definition ingest (cwd : list node) : M heap (list ref * list ref) :=
  documents <- load_documents cwd ;;
  chunks <- split_documents documents ;;
  ret (documents, chunks).

End Splitter.

End Ingest.

(** ** Cell "Embedding": rebuilding the vector store *)

Module Store.

Section VectorStore.

Context {vector : Type}.

(** The embedding service on one text ([OpenAIEmbeddings]); it may fail. *)
Variable embed : string → result vector.

Record EmbeddedChunk : Type := mkEmbeddedChunk {
  chunk_text : string;
  chunk_metadata : gmap string string;
  chunk_vector : vector
}.

(** Modelled from the spec: the Vector Store of section 4.4 is the Chroma
    package, which is not part of the repository.  A persisted collection
    holds the inserted entries, each under the stable identifier it was
    assigned at insertion. *)
Record collection : Type := mkCollection {
  entries : gmap nat EmbeddedChunk;
  next_id : nat
}.

Definition empty_collection : collection := mkCollection ∅ 0.

(** The directory [db_name]: missing, or present with or without a
    persisted collection. *)
Inductive disk : Type :=
| Missing
| Persisted (c : option collection).

(** [os.path.exists(db_name)] *)
Definition path_exists : M disk bool :=
  λ d, (Ok (match d with Missing => false | Persisted _ => true end), d).

(** Modelled from the spec: opening the store for the configured name
    ([Chroma(persist_directory=db_name, ...)]) yields the persisted
    collection, creating an empty one when there is none. *)
Definition open_collection : M disk collection :=
  λ d, match d with
       | Persisted (Some c) => (Ok c, d)
       | _ => (Ok empty_collection, Persisted (Some empty_collection))
       end.

(** Modelled from the spec: [reset()] "deletes any existing persisted
    collection for the configured store name" ([delete_collection()]). *)
Definition delete_collection : M disk unit :=
  open_collection ;;; modify (λ _, Persisted None).

Definition insert_entry (c : collection) (e : EmbeddedChunk) : collection :=
  mkCollection (<[next_id c := e]> (entries c)) (S (next_id c)).

(** Modelled from the spec: [add(EmbeddedChunk[])] "inserts entries;
    assigns each a stable identifier; persists to durable storage". *)
Definition add (es : list EmbeddedChunk) : M disk unit :=
  c <- open_collection ;;
  modify (λ _, Persisted (Some (foldl insert_entry c es))).

(** Modelled from the spec: [count()] "returns number of stored
    vectors". *)
Definition count : M disk nat :=
  c <- open_collection ;; ret (size (entries c)).

(** Modelled from the spec: embedding a batch is all-or-nothing per
    ingestion run (section 4.3): the first failure aborts it. *)
Fixpoint embed_documents (chunks : list Document)
    : result (list EmbeddedChunk) :=
  match chunks with
  | [] => Ok []
  | d :: chunks' =>
      match embed (page_content d) with
      | Raise e => Raise e
      | Ok v =>
          match embed_documents chunks' with
          | Raise e => Raise e
          | Ok es =>
              Ok (mkEmbeddedChunk (page_content d) (metadata d) v :: es)
          end
      end
  end.

(** Modelled from the spec: [Chroma.from_documents(documents=chunks,
    embedding=embeddings, persist_directory=db_name)] is the ingestion data
    flow of section 2, Embedding Client then Vector Store: open the store,
    embed the chunks, add them. *)
Definition from_documents (chunks : list Document) : M disk unit :=
  open_collection ;;;
  es <- lift (embed_documents chunks) ;;
  add es.

(** The cell: delete the collection if the directory exists, build the
    store from [chunks], report [vectorstore._collection.count()]. *)
Definition rebuild (chunks : list Document) : M disk nat :=
  present <- path_exists ;;
  (if present then delete_collection else ret tt) ;;;
  from_documents chunks ;;;
  count.

End VectorStore.

Section Query.

Context {vector D : Type}.

(** The similarity metric: the distance between two vectors, and the order
    on distances. *)
Variable distance : vector → vector → D.
Variable le : relation D.
Context `{!∀ x y, Decision (le x y)}.

(** [a] is at most as far from [v] as [b] is. *)
Definition nearer (v : vector) (a b : @EmbeddedChunk vector) : Prop :=
  le (distance v (chunk_vector a)) (distance v (chunk_vector b)).

#[global] Instance nearer_dec (v : vector) (a b : @EmbeddedChunk vector) :
  Decision (nearer v a b).
Proof. unfold nearer. apply _. Defined.

(** The entries of a collection, identifiers dropped. *)
Definition stored (c : @collection vector) : list EmbeddedChunk :=
  (map_to_list (entries c)).*2.

(** Modelled from the spec: [query(vector, k)] "returns the k
    EmbeddedChunks with the smallest distance ... to the input vector,
    ordered nearest-first"; the search itself is inside the Chroma package.
    The notebook reaches it through [vectorstore.as_retriever()] and
    [vectorstore.as_retriever(search_kwargs={"k": 25})]. *)
Definition query (c : @collection vector) (v : vector) (k : nat)
    : list EmbeddedChunk :=
  take k (merge_sort (nearer v) (stored c)).

End Query.

End Store.

(** ** Cells "RAG Using LangChain" and "Debugging": the chat function *)

Module Chat.

Record ConversationTurn : Type := mkTurn {
  question : string;
  answer : string;
  ordinal : nat
}.

(** Values of the dictionaries that go in and out of the chain. *)
Inductive pyval : Type :=
| Str (s : string)
| Turns (l : list ConversationTurn).

Section Surface.

Context {S : Type}.

(** [conversation_chain.invoke]: the chain, with whatever state it
    keeps. *)
Variable invoke : gmap string pyval → M S (gmap string pyval).

(** [def chat(question, history)]: [history] is what the chat widget
    passes along with the question. *)
Definition chat (question : string) (history : list (gmap string string))
    : M S pyval :=
  result <- invoke {[ "question" := Str question ]} ;;
  match result !! "answer" with
  | Some a => ret a
  | None => raise (KeyError "answer")
  end.

End Surface.

(** Modelled from the spec: Conversation Memory (section 4.5;
    [ConversationBufferMemory] is not part of the repository) is "an
    append-only ordered log of prior (question, answer) turns" with the
    operations [append] and [history]. *)
Definition append (q a : string) (m : list ConversationTurn)
    : list ConversationTurn :=
  m ++ [mkTurn q a (length m)].

Definition history (m : list ConversationTurn) : list ConversationTurn := m.

Section Orchestrator.

Context {vector chunk : Type}.

Record prompt : Type := mkPrompt {
  context : list chunk;
  prior_turns : list ConversationTurn;
  new_question : string
}.

(** The services behind the chain: embedding of the question, the
    store's [query(vector, k)], the chat-completion call.  Both remote
    calls may fail. *)
Variable embed_query : string → result vector.
Variable query : vector → nat → list chunk.
Variable call_llm : prompt → result string.
Variable k : nat.

Definition receive_question (inputs : gmap string pyval) : result string :=
  match inputs !! "question" with
  | Some (Str q) => Ok q
  | _ => Raise (ValueError "Missing some input keys: question")
  end.

(** Modelled from the spec: the Answer Orchestrator of section 4.6
    ([ConversationalRetrievalChain] is not part of the repository) runs
    RECEIVE_QUESTION, EMBED_QUESTION, RETRIEVE(k), ASSEMBLE_PROMPT
    (retrieved chunks, full history, question), CALL_LLM, RECORD_TURN,
    RETURN_ANSWER, in this order, on the Conversation Memory. *)
Definition invoke (inputs : gmap string pyval)
    : M (list ConversationTurn) (gmap string pyval) :=
  q <- lift (receive_question inputs) ;;
  v <- lift (embed_query q) ;;
  let retrieved := query v k in
  memory <- get ;;
  a <- lift (call_llm (mkPrompt retrieved (history memory) q)) ;;
  modify (append q a) ;;;
  ret (<["question" := Str q]>
         (<["chat_history" := Turns (history memory)]>
            {[ "answer" := Str a ]})).

(** A session: the questions asked one after the other through [chat]. *)
Definition session (questions : list string)
    : M (list ConversationTurn) (list pyval) :=
  mapM (λ q, chat invoke q []) questions.

End Orchestrator.

End Chat.

(** * Specification vocabulary *)

(** [r] is a live reference to a document with property [P]. *)
Definition live (P : Document → Prop) (h : heap) (r : ref) : Prop :=
  ∃ d, h !! r = Some d ∧ P d.

(** The document came from a file below the first-level folder [folder]
    of the knowledge base and carries that folder's name as [doc_type]. *)
Definition tagged (d : Document) : Prop :=
  ∃ folder rest,
    Path.valid_name folder = true ∧
    metadata d !! "source"
      = Some (Path.join (Path.join Ingest.knowledge_base folder) rest) ∧
    metadata d !! "doc_type" = Some folder.

(** An entry of the knowledge-base root, as [glob.glob] returns it. *)
Definition first_level (folder : string * node) : Prop :=
  ∃ name, Path.valid_name name = true ∧
          folder.1 = Path.join Ingest.knowledge_base name.

(** The chunk [c] was cut from one of [documents] and carries that
    document's metadata. *)
Definition inherits (split_text : string → list string) (h : heap)
    (documents : list ref) (c : ref) : Prop :=
  ∃ r d ch, r ∈ documents ∧ h !! r = Some d ∧ h !! c = Some ch ∧
    metadata ch = metadata d ∧
    page_content ch ∈ split_text (page_content d).

(** The first-level subdirectory of the knowledge base a source path lies
    under: the component right after [knowledge-base/]. *)
Definition first_level_folder (source : string) : option string :=
  Path.first_part <$> Path.relative_to Ingest.knowledge_base source.

(** The file lies directly in its first-level folder, not in a folder
    nested below it. *)
Definition directly_in_first_level_folder (source : string) : bool :=
  match Path.relative_to Ingest.knowledge_base source with
  | Some rel => negb (Path.has_sep (Path.after_first_part rel))
  | None => false
  end.

(** The [doc_type] is the name of the folder the file lies in. *)
Definition doc_type_is_parent_folder (d : Document) : Prop :=
  ∃ source, metadata d !! "source" = Some source ∧
            metadata d !! "doc_type" = Some (Path.parent_folder source).

(** [os.path.exists(d)] for an entry [d] of the working directory. *)
Definition entry_exists (cwd : list node) (d : string) : bool :=
  existsb (λ n, String.eqb (node_name n) d) cwd.

(** Identifiers at or above [next_id] are free. *)
Definition fresh_above {vector : Type} (c : @Store.collection vector) : Prop :=
  ∀ i, Store.next_id c ≤ i → Store.entries c !! i = None.

(** [append] for each (question, answer) pair, in order. *)
Definition append_all (turns : list (string * string))
    (m : list Chat.ConversationTurn) : list Chat.ConversationTurn :=
  foldl (λ m qa, Chat.append qa.1 qa.2 m) m turns.

Definition exchange (t : Chat.ConversationTurn) : string * string :=
  (Chat.question t, Chat.answer t).

(** ** Sample inputs *)

(** A splitter that returns the text as its only piece. *)
Definition whole_text (text : string) : list string := [text].

Definition nested_kb : list node :=
  [Dir "knowledge-base"
     [Dir "policies"
        [Dir "archive" [File "old.md" "Old leave policy"]]]].

Definition two_folder_kb : list node :=
  [Dir "knowledge-base"
     [Dir "policies"
        [File "leave.md" "Leave policy";
         Dir "archive" [File "old.md" "Old leave policy"];
         File "notes.txt" "not markdown"];
      Dir "faq" [File "faq.md" "Questions and answers"];
      Dir ".git" [File "HEAD.md" "hidden"]]].

Definition no_kb : list node :=
  [File "README.md" "# Expert Knowledge Worker"].

Definition leave_doc : Document :=
  mkDocument "Leave policy"
    {[ "source" := "knowledge-base/policies/leave.md" ]}.

Definition faq_doc : Document :=
  mkDocument "Questions and answers"
    {[ "source" := "knowledge-base/faq/faq.md" ]}.

Definition loaded_heap : list Document := [leave_doc; faq_doc].

(** An embedding service that never fails (vectors are numbers here). *)
Definition length_embed (text : string) : result nat :=
  Ok (String.length text).

Definition stale_disk : Store.disk :=
  Store.Persisted
    (Some (Store.mkCollection
             {[ 7 := Store.mkEmbeddedChunk "stale" ∅ 5 ]} 8)).

(** Distances between numbers, for the sample store. *)
Definition gap (a b : nat) : nat := if decide (a ≤ b) then b - a else a - b.

Definition sample_collection : @Store.collection nat :=
  foldl Store.insert_entry Store.empty_collection
    [Store.mkEmbeddedChunk "Leave policy" ∅ 12;
     Store.mkEmbeddedChunk "Questions and answers" ∅ 21;
     Store.mkEmbeddedChunk "Old leave policy" ∅ 16].

Definition top_chunks (v k : nat) : list string :=
  take k ["Leave policy"; "Questions and answers"].

(** A chat-completion service that is down. *)
Definition llm_down (p : @Chat.prompt string) : result string :=
  Raise (ServiceError "chat completion failed").

Definition one_turn : list Chat.ConversationTurn :=
  [Chat.mkTurn "What is the leave policy?" "Twenty days." 0].

(** * The rest of the notebook *)

(** ** Cell "Import Libraries and Environment Set Up" *)

Module Env.





Section Startup.

(** [load_dotenv()]: what it reads from [.env] and writes to the
    environment is the package's business; it returns normally. *)
Variable load_dotenv : gmap string string → gmap string string.


End Startup.

End Env.

(** ** The chat widget's calls *)

Module Widget.

Section Serve.

Context {S : Type}.
Variable chat : string → list (gmap string string) → M S Chat.pyval.

(** [gr.ChatInterface(chat, ...)] calls [chat(message, history)] once per
    submitted message and goes on after a call that raised; [calls] lists
    the messages with the history the widget passed. *)
Fixpoint serve (calls : list (string * list (gmap string string))) (s : S)
    : list (result Chat.pyval) * S :=
  match calls with
  | [] => ([], s)
  | call :: calls' =>
      let '(r, s1) := chat call.1 call.2 s in
      let '(rs, s2) := serve calls' s1 in
      (r :: rs, s2)
  end.

End Serve.

End Widget.

(** ** More vocabulary *)

Definition is_Ok {A : Type} (r : result A) : bool :=
  match r with
  | Ok _ => true
  | Raise _ => false
  end.

(** The questions of the calls that returned an answer. *)
Definition answered (calls : list (string * list (gmap string string)))
    (results : list (result Chat.pyval)) : list string :=
  (λ cr, cr.1.1) <$> List.filter (λ cr, is_Ok cr.2) (zip calls results).

(** The turns are numbered from 0 in the order they were recorded. *)
Definition well_numbered (m : list Chat.ConversationTurn) : Prop :=
  Chat.ordinal <$> m = seq 0 (length m).

(** ** More sample inputs *)

(** An embedding service that fails on the empty text. *)
Definition picky_embed (text : string) : result nat :=
  if decide (text = "") then Raise (ServiceError "empty input")
  else Ok (String.length text).

Definition same_name_kb : list node :=
  [Dir "knowledge-base"
     [Dir "policies" [Dir "policies" [File "x.md" "Nested policy"]]]].

Definition unreadable_kb : list node :=
  [Dir "knowledge-base"
     [Dir "faq" [File "faq.md" "Questions and answers"];
      Dir "policies" [Unreadable "scan.md"]]].

(** A chat-completion service that echoes the question. *)
Definition echo_llm (p : @Chat.prompt string) : result string :=
  Ok (Chat.new_question p).

(** * Properties *)

(** ** Reasoning about statement sequences *)

Lemma bind_Ok {S A B : Type} (m : M S A) (k : A → M S B) s b s' :
  bind m k s = (Ok b, s') →
  ∃ a s1, m s = (Ok a, s1) ∧ k a s1 = (Ok b, s').
Proof.
  unfold bind. destruct (m s) as [[a|e] s1]; intros H.
  - by exists a, s1.
  - discriminate.
Qed.

Lemma mapM_alloc {A : Type} (g : A → Document) (l : list A) (h : heap) :
  mapM (λ x, alloc (g x)) l h
  = (Ok (seq (length h) (length l)), h ++ (g <$> l)).
Proof.
  revert h. induction l as [|x l IH]; intros h; simpl.
  - unfold ret. by rewrite app_nil_r.
  - unfold bind at 1. unfold alloc at 1. unfold bind at 1.
    rewrite IH. unfold ret. rewrite length_app. simpl.
    rewrite Nat.add_1_r, <- app_assoc. done.
Qed.

(** ** Paths *)

Lemma string_app_nil (b : string) : "" +:+ b = b.
Proof. reflexivity. Qed.

Lemma string_app_cons (c : ascii) (a b : string) :
  String c a +:+ b = String c (a +:+ b).
Proof. reflexivity. Qed.

Ltac str_simpl := rewrite ?string_app_cons, ?string_app_nil; simpl.

Section PathFacts.
Import Path.

Lemma has_sep_app (a b : string) :
  has_sep (a +:+ b) = has_sep a || has_sep b.
Proof.
  induction a as [|c a IH]; str_simpl; [done|].
  rewrite IH. by rewrite orb_assoc.
Qed.

Lemma app_assoc_string (a b c : string) :
  (a +:+ b) +:+ c = a +:+ (b +:+ c).
Proof. induction a as [|x a IH]; str_simpl; [done|]. by rewrite IH. Qed.

Lemma has_sep_join (d name : string) : has_sep (join d name) = true.
Proof.
  unfold join. rewrite has_sep_app. str_simpl. by rewrite orb_true_r.
Qed.

Lemma basename_join (d name : string) :
  has_sep name = false → basename (join d name) = name.
Proof.
  intros Hn. unfold join. induction d as [|c d IH].
  - str_simpl. by rewrite Hn.
  - rewrite (string_app_cons c d). simpl.
    by rewrite (has_sep_join d name : has_sep (d +:+ "/" +:+ name) = true).
Qed.

Lemma head_join (d name : string) :
  has_sep name = false → head (join d name) = d +:+ "/".
Proof.
  intros Hn. unfold join. induction d as [|c d IH].
  - str_simpl. by rewrite Hn.
  - rewrite !(string_app_cons c d). simpl.
    by rewrite (has_sep_join d name : has_sep (d +:+ "/" +:+ name) = true), IH.
Qed.

Lemma rstrip_sep_no_sep (s : string) :
  has_sep s = false → rstrip_sep s = s.
Proof.
  induction s as [|c s IH]; simpl; [done|].
  intros [Hc Hs]%orb_false_elim. rewrite (IH Hs), Hc.
  by destruct s.
Qed.

Lemma rstrip_sep_app_name (a name : string) :
  valid_name name = true → rstrip_sep (a +:+ name) = a +:+ name.
Proof.
  unfold valid_name. intros [Hne Hs]%andb_true_iff.
  apply negb_true_iff in Hne, Hs.
  induction a as [|c a IH]; str_simpl.
  - by apply rstrip_sep_no_sep.
  - rewrite IH. destruct (a +:+ name) eqn:E; [|done].
    destruct a; [|discriminate]. rewrite string_app_nil in E. by subst name.
Qed.

Lemma rstrip_sep_snoc (s : string) :
  rstrip_sep (s +:+ "/") = rstrip_sep s.
Proof. induction s as [|c s IH]; str_simpl; [done|]. by rewrite IH. Qed.

Lemma all_sep_app (a b : string) :
  all_sep (a +:+ b) = all_sep a && all_sep b.
Proof.
  induction a as [|c a IH]; str_simpl; [done|].
  rewrite IH. by rewrite andb_assoc.
Qed.

Lemma all_sep_name (name : string) :
  valid_name name = true → all_sep name = false.
Proof.
  unfold valid_name. intros [Hne Hs]%andb_true_iff.
  apply negb_true_iff in Hne, Hs.
  destruct name as [|c name]; [done|]. simpl in *.
  apply orb_false_elim in Hs as [-> _]. done.
Qed.

Lemma valid_name_no_sep (name : string) :
  valid_name name = true → has_sep name = false.
Proof.
  unfold valid_name. intros [_ Hs]%andb_true_iff.
  by apply negb_true_iff in Hs.
Qed.

(** A file directly inside a folder named [name] has that folder as its
    parent folder. *)
Lemma parent_folder_join (a name file : string) :
  valid_name name = true → has_sep file = false →
  parent_folder (join (join a name) file) = name.
Proof.
  intros Hname Hfile. unfold parent_folder, dirname.
  rewrite (head_join _ _ Hfile).
  assert (all_sep (join a name +:+ "/") = false) as Hall.
  { unfold join. rewrite !all_sep_app, (all_sep_name _ Hname).
    by rewrite !andb_false_r. }
  assert (String.eqb (join a name +:+ "/") "" = false) as Hne.
  { destruct (join a name +:+ "/") eqn:E; [by simpl in Hall|done]. }
  rewrite Hall, Hne. simpl.
  rewrite rstrip_sep_snoc. unfold join.
  rewrite <- app_assoc_string, (rstrip_sep_app_name _ _ Hname).
  rewrite app_assoc_string. apply basename_join.
  by apply valid_name_no_sep.
Qed.

Example basename_of_folder :
  Path.basename "knowledge-base/policies" = "policies".
Proof. reflexivity. Qed.

Example dirname_examples :
  Path.dirname "knowledge-base/policies/leave.md" = "knowledge-base/policies" ∧
  Path.dirname "a//b" = "a" ∧ Path.dirname "/a" = "/" ∧ Path.dirname "a" = "".
Proof. repeat split; reflexivity. Qed.

Example parent_folder_of_nested_file :
  Path.parent_folder "knowledge-base/policies/archive/old.md" = "archive" ∧
  first_level_folder "knowledge-base/policies/archive/old.md" = Some "policies".
Proof. split; reflexivity. Qed.

End PathFacts.

(** ** The loader and the heap *)

Lemma node_induction (P : node → Prop) :
  (∀ name content, P (File name content)) →
  (∀ name, P (Unreadable name)) →
  (∀ name children, Forall P children → P (Dir name children)) →
  ∀ n, P n.
Proof.
  intros HFile HUnreadable HDir. fix IH 1.
  intros [name content|name|name children].
  - apply HFile.
  - apply HUnreadable.
  - apply HDir. revert children. fix IHc 1. intros [|c children].
    + constructor.
    + constructor; [apply IH | apply IHc].
Qed.

Section IngestFacts.
Import Ingest.

(** Every path the loader finds lies below the folder it searches. *)
Lemma rglob_md_below (n : node) : ∀ (path : string) file,
  file ∈ rglob_md path n →
  match n with
  | Dir _ _ => ∃ rest, file.1 = Path.join path rest
  | _ => file.1 = path
  end.
Proof.
  induction n as [name content|name|name children IH] using node_induction;
    intros path file Hin; simpl in Hin.
  - destruct (ends_with ".md" name); [|by apply elem_of_nil in Hin].
    by apply list_elem_of_singleton in Hin as ->.
  - destruct (ends_with ".md" name); [|by apply elem_of_nil in Hin].
    by apply list_elem_of_singleton in Hin as ->.
  - rewrite Forall_forall in IH.
    assert (∀ c, c ∈ children →
              file ∈ rglob_md (Path.join path (node_name c)) c →
              ∃ rest, file.1 = Path.join path rest) as Hchild.
    { intros c Hc Hfile. specialize (IH c Hc _ _ Hfile).
      destruct c as [cname ccontent|cname|cname cchildren]; simpl in IH.
      - by eexists.
      - by eexists.
      - destruct IH as [rest ->].
        exists (Path.join cname rest). unfold Path.join. simpl.
        by rewrite !app_assoc_string. }
    apply elem_of_app in Hin as [Hin|Hin];
      apply list_elem_of_In, in_flat_map in Hin as (c & Hc & Hin);
      apply list_elem_of_In in Hc, Hin;
      (destruct (is_hidden (node_name c)); [by apply elem_of_nil in Hin|]);
      destruct c as [cname ccontent|cname|cname cchildren];
      first [by apply elem_of_nil in Hin | by eapply Hchild].
Qed.

Lemma mapM_TextLoader_load files : ∀ (h : heap) refs h',
  mapM TextLoader_load files h = (Ok refs, h') →
  ∃ news, h' = h ++ news ∧ refs = seq (length h) (length news) ∧
    Forall (λ d, ∃ file, file ∈ files ∧
              metadata d = {[ "source" := file.1 ]}) news.
Proof.
  induction files as [|file files IH]; intros h refs h' Hrun; simpl in Hrun.
  - injection Hrun as <- <-. exists []. by rewrite app_nil_r.
  - apply bind_Ok in Hrun as (r & h1 & Hload & Hrun).
    apply bind_Ok in Hrun as (rs & h2 & Hrest & Hret).
    injection Hret as <- <-.
    unfold TextLoader_load in Hload.
    destruct file.2 as [text|]; [|discriminate].
    injection Hload as <- <-.
    destruct (IH _ _ _ Hrest) as (news & -> & -> & Hnews).
    eexists (_ :: news). split; [by rewrite <- app_assoc|].
    split.
    + simpl. by rewrite length_app, Nat.add_1_r.
    + constructor.
      * exists file. split; [left|done].
      * eapply Forall_impl; [exact Hnews|].
        intros d (f & Hf & Hd). exists f. split; [by right|done].
Qed.

(** Tagging the documents just loaded rewrites exactly those heap cells
    and hands back the same references. *)
Lemma mapM_add_metadata (doc_type : string) (news : heap) : ∀ h : heap,
  mapM (λ doc, add_metadata doc doc_type) (seq (length h) (length news))
       (h ++ news)
  = (Ok (seq (length h) (length news)),
     h ++ (set_metadata "doc_type" doc_type <$> news)).
Proof.
  induction news as [|d news IH]; intros h; simpl.
  - done.
  - unfold bind at 1. unfold add_metadata at 1, bind, modify, ret.
    replace (alter (set_metadata "doc_type" doc_type) (length h)
               (h ++ d :: news))
      with ((h ++ [set_metadata "doc_type" doc_type d]) ++ news).
    2:{ rewrite <- app_assoc. simpl.
        rewrite alter_app_r_alt by lia. by rewrite Nat.sub_diag. }
    replace (S (length h))
      with (length (h ++ [set_metadata "doc_type" doc_type d])).
    2:{ rewrite length_app. simpl. lia. }
    rewrite IH. rewrite length_app. simpl.
    rewrite Nat.add_1_r, <- app_assoc. done.
Qed.

(** One iteration of the loop: the folder's documents are appended to the
    heap, each with its path below the folder as [source] and the
    folder's base name as [doc_type]. *)
Lemma load_folder_spec (folder : string * node) (h : heap) refs h' :
  load_folder folder h = (Ok refs, h') →
  ∃ news, h' = h ++ news ∧ refs = seq (length h) (length news) ∧
    Forall (λ d, ∃ rest,
      metadata d = <["doc_type" := Path.basename folder.1]>
                     {[ "source" := Path.join folder.1 rest ]}) news.
Proof.
  unfold load_folder. intros Hrun.
  apply bind_Ok in Hrun as (docs & h1 & Hload & Htag).
  unfold DirectoryLoader_load in Hload.
  destruct folder as [path n]. simpl in *.
  destruct n as [| |name children]; [discriminate|discriminate|].
  apply mapM_TextLoader_load in Hload as (news & -> & -> & Hnews).
  rewrite mapM_add_metadata in Htag. injection Htag as <- <-.
  eexists. split; [done|]. split; [by rewrite length_fmap|].
  apply Forall_fmap. eapply Forall_impl; [exact Hnews|].
  intros d (file & Hfile & Hd). simpl.
  apply (rglob_md_below (Dir name children)) in Hfile as [rest Hp].
  exists rest. by rewrite Hd, Hp.
Qed.

(** The loop invariant rule for [for ... : acc.extend(...)]. *)
Lemma for_extend_invariant {S A B : Type} (body : A → M S (list B))
    (I : S → list B → Prop) (P : A → Prop) :
  (∀ x s acc ys s',
      P x → I s acc → body x s = (Ok ys, s') → I s' (acc ++ ys)) →
  ∀ l acc s out s',
    Forall P l → I s acc → for_extend body l acc s = (Ok out, s') →
    I s' out.
Proof.
  intros Hstep. induction l as [|x l IH]; intros acc s out s' HP HI Hrun.
  - simpl in Hrun. by injection Hrun as <- <-.
  - simpl in Hrun. apply bind_Ok in Hrun as (ys & s1 & Hbody & Hrun).
    apply Forall_cons in HP as [Hx HP].
    eapply IH; [exact HP| |exact Hrun]. by eapply Hstep.
Qed.

Lemma live_app P (h news : heap) r : live P h r → live P (h ++ news) r.
Proof.
  intros (d & Hd & HP). exists d. split; [|done].
  by apply lookup_app_l_Some.
Qed.

Lemma live_fresh P (h news : heap) r :
  Forall P news → r ∈ seq (length h) (length news) →
  live P (h ++ news) r.
Proof.
  intros Hnews [Hge Hlt]%elem_of_seq.
  destruct (lookup_lt_is_Some_2 news (r - length h)) as [d Hd]; [lia|].
  exists d. split.
  - rewrite lookup_app_r by lia. done.
  - rewrite Forall_forall in Hnews. apply Hnews.
    by eapply list_elem_of_lookup_2.
Qed.

Lemma folders_first_level (cwd : list node) :
  wf_fs cwd = true → Forall first_level (folders cwd).
Proof.
  intros Hwf. unfold folders, glob_star, scandir.
  destruct (find _ cwd) as [[| |name children]|] eqn:Hfind;
    try by constructor.
  apply find_some in Hfind as [Hin _].
  unfold wf_fs in Hwf. rewrite forallb_forall in Hwf.
  specialize (Hwf _ Hin). simpl in Hwf.
  apply andb_true_iff in Hwf as [_ Hch]. rewrite forallb_forall in Hch.
  apply Forall_fmap, Forall_forall. intros n Hn%list_elem_of_In.
  apply filter_In in Hn as [Hn _]. specialize (Hch _ Hn).
  exists (node_name n). split; [|done].
  destruct n; simpl in *; by apply andb_true_iff in Hch as [? _].
Qed.

Lemma load_documents_tagged (cwd : list node) (h : heap) documents h' :
  wf_fs cwd = true →
  load_documents cwd h = (Ok documents, h') →
  ∀ r, r ∈ documents → live tagged h' r.
Proof.
  intros Hwf Hrun. unfold load_documents in Hrun.
  eapply (for_extend_invariant load_folder
            (λ h acc, ∀ r, r ∈ acc → live tagged h r) first_level);
    [|by apply folders_first_level| |exact Hrun].
  - clear. intros folder h acc refs h' (name & Hname & Hpath) Hacc Hload.
    apply load_folder_spec in Hload as (news & -> & -> & Hnews).
    intros r [Hr|Hr]%elem_of_app.
    + by apply live_app, Hacc.
    + apply live_fresh; [|done].
      eapply Forall_impl; [exact Hnews|]. intros d [rest Hd]. simpl in Hd.
      exists name, rest. split; [done|]. rewrite Hd, Hpath.
      rewrite lookup_insert_ne by done.
      rewrite lookup_singleton_eq, lookup_insert_eq.
      rewrite basename_join by by apply valid_name_no_sep. done.
  - intros r Hr. by apply elem_of_nil in Hr.
Qed.

Lemma relative_to_join (d x : string) :
  Path.relative_to d (Path.join d x) = Some x.
Proof.
  unfold Path.join. induction d as [|c d IH].
  - done.
  - rewrite string_app_cons. simpl. by rewrite Ascii.eqb_refl.
Qed.

Lemma first_part_join (name rest : string) :
  Path.has_sep name = false →
  Path.first_part (Path.join name rest) = name.
Proof.
  unfold Path.join. induction name as [|c name IH]; [done|].
  rewrite string_app_cons. simpl.
  intros [-> Hn]%orb_false_elim. by rewrite IH.
Qed.

Lemma after_first_part_join (name rest : string) :
  Path.has_sep name = false →
  Path.after_first_part (Path.join name rest) = rest.
Proof.
  unfold Path.join. induction name as [|c name IH]; [done|].
  rewrite string_app_cons. simpl.
  intros [-> Hn]%orb_false_elim. by rewrite IH.
Qed.

Lemma join_join (a b c : string) :
  Path.join (Path.join a b) c = Path.join a (Path.join b c).
Proof. unfold Path.join. by rewrite !app_assoc_string. Qed.

Lemma tagged_first_level (d : Document) :
  tagged d →
  ∃ source folder,
    metadata d !! "source" = Some source ∧
    metadata d !! "doc_type" = Some folder ∧
    first_level_folder source = Some folder ∧
    (directly_in_first_level_folder source = true →
     Path.parent_folder source = folder).
Proof.
  intros (folder & rest & Hvalid & Hsource & Htype).
  pose proof (valid_name_no_sep _ Hvalid) as Hsep.
  eexists _, folder. split; [exact Hsource|]. split; [done|].
  unfold first_level_folder, directly_in_first_level_folder.
  rewrite join_join, relative_to_join. simpl.
  rewrite first_part_join, after_first_part_join by done.
  split; [done|]. intros Hrest%negb_true_iff.
  rewrite <- join_join. by apply parent_folder_join.
Qed.

Section SplitFacts.
Variable split_text : string → list string.

Lemma split_document_spec (doc : ref) (h : heap) refs h' :
  split_document split_text doc h = (Ok refs, h') →
  ∃ d, h !! doc = Some d ∧
    h' = h ++ ((λ chunk, mkDocument chunk (metadata d))
                 <$> split_text (page_content d)) ∧
    refs = seq (length h) (length (split_text (page_content d))).
Proof.
  unfold split_document. intros Hrun.
  apply bind_Ok in Hrun as (d & h1 & Hread & Hrun).
  unfold read in Hread. destruct (h !! doc) as [d'|] eqn:Hd; [|done].
  injection Hread as -> ->. rewrite mapM_alloc in Hrun.
  injection Hrun as <- <-. by exists d.
Qed.

Lemma inherits_app h news documents c :
  inherits split_text h documents c →
  inherits split_text (h ++ news) documents c.
Proof.
  intros (r & d & ch & Hr & Hd & Hch & Hmeta).
  exists r, d, ch. split; [done|].
  split; [by apply lookup_app_l_Some|].
  split; [by apply lookup_app_l_Some|done].
Qed.

(** Splitting only allocates: the documents stay as they are, and each
    chunk is a piece of one of them with that document's metadata. *)
Lemma split_documents_inherits (documents : list ref) (h : heap)
    chunks h' :
  split_documents split_text documents h = (Ok chunks, h') →
  (∃ news, h' = h ++ news) ∧
  ∀ c, c ∈ chunks → inherits split_text h' documents c.
Proof.
  intros Hrun. unfold split_documents in Hrun.
  eapply (for_extend_invariant (split_document split_text)
            (λ h1 acc, (∃ news, h1 = h ++ news) ∧
                       ∀ c, c ∈ acc → inherits split_text h1 documents c)
            (λ r, r ∈ documents));
    [|by apply Forall_forall| |exact Hrun].
  - clear Hrun. intros doc h1 acc refs h2 Hdoc [[news ->] Hacc] Hsplit.
    apply split_document_spec in Hsplit as (d & Hd & -> & ->).
    split; [eexists; by rewrite <- app_assoc|].
    intros c [Hc|Hc]%elem_of_app; [by apply inherits_app, Hacc|].
    apply elem_of_seq in Hc as [Hge Hlt].
    destruct (lookup_lt_is_Some_2 (split_text (page_content d))
                (c - length (h ++ news))) as [chunk Hchunk]; [lia|].
    exists doc, d, (mkDocument chunk (metadata d)).
    split; [done|]. split; [by apply lookup_app_l_Some|].
    split; [|split; [done|by eapply list_elem_of_lookup_2]].
    rewrite lookup_app_r by lia. by rewrite list_lookup_fmap, Hchunk.
  - split; [exists []; by rewrite app_nil_r|].
    intros c Hc. by apply elem_of_nil in Hc.
Qed.
End SplitFacts.
End IngestFacts.

(** C1, as amended.  Every ingested document, and every chunk cut from it,
    carries as [doc_type] the name of the first-level subdirectory of the
    knowledge-base root that its source path lies under; each chunk has the
    metadata of the document it was cut from.  That first-level folder is
    the file's immediate parent folder when the file lies directly in
    it. *)
Theorem doc_type_is_first_level_folder (split_text : string → list string)
    (cwd : list node) (h : list Document) documents chunks h' :
  wf_fs cwd = true →
  Ingest.ingest split_text cwd h = (Ok (documents, chunks), h') →
  (∀ c, c ∈ chunks → inherits split_text h' documents c) ∧
  ∀ r, r ∈ documents ++ chunks →
    ∃ d source folder,
      h' !! r = Some d ∧
      metadata d !! "source" = Some source ∧
      metadata d !! "doc_type" = Some folder ∧
      first_level_folder source = Some folder ∧
      (directly_in_first_level_folder source = true →
       Path.parent_folder source = folder).
Proof.
  intros Hwf Hrun. unfold Ingest.ingest in Hrun.
  apply bind_Ok in Hrun as (docs & h1 & Hload & Hrun).
  apply bind_Ok in Hrun as (cs & h2 & Hsplit & Hret).
  injection Hret as <- <- <-.
  pose proof (load_documents_tagged _ _ _ _ Hwf Hload) as Hdocs.
  apply split_documents_inherits in Hsplit as [[news ->] Hchunks].
  split; [done|].
  assert (∀ r, r ∈ docs ++ cs → live tagged (h1 ++ news) r) as Hlive.
  { intros r [Hr|Hr]%elem_of_app; [by apply live_app, Hdocs|].
    destruct (Hchunks r Hr) as (r0 & d & ch & Hr0 & Hd & Hch & Hmeta & _).
    destruct (Hdocs r0 Hr0) as (d0 & Hd0 & folder & rest & Htag).
    apply (lookup_app_l_Some _ news) in Hd0. rewrite Hd in Hd0.
    injection Hd0 as <-.
    exists ch. split; [done|]. exists folder, rest. by rewrite Hmeta. }
  intros r Hr. destruct (Hlive r Hr) as (d & Hd & Htag).
  apply tagged_first_level in Htag as (source & folder & Htag).
  by exists d, source, folder.
Qed.

Lemma doc_type_is_first_level_folder_witness :
  wf_fs two_folder_kb = true ∧
  ∀ r, r ∈ [0; 1; 2] ++ [3; 4; 5] →
    ∃ d source folder,
      (Ingest.ingest whole_text two_folder_kb []).2 !! r = Some d ∧
      metadata d !! "source" = Some source ∧
      metadata d !! "doc_type" = Some folder ∧
      first_level_folder source = Some folder ∧
      (directly_in_first_level_folder source = true →
       Path.parent_folder source = folder).
Proof.
  split; [reflexivity|].
  apply (doc_type_is_first_level_folder whole_text two_folder_kb []
           [0; 1; 2] [3; 4; 5]).
  - reflexivity.
  - vm_compute. reflexivity.
Defined.

(** C1 as stated fails: the markdown file
    [knowledge-base/policies/archive/old.md] lies in the folder [archive],
    and both its document and the chunk cut from it are tagged
    [policies]. *)
Lemma nested_file_doc_type_is_not_parent_folder :
  (Ingest.ingest whole_text nested_kb []).1 = Ok ([0], [1]) ∧
  Path.parent_folder "knowledge-base/policies/archive/old.md" = "archive" ∧
  ∃ document chunk,
    (Ingest.ingest whole_text nested_kb []).2 !! 0 = Some document ∧
    (Ingest.ingest whole_text nested_kb []).2 !! 1 = Some chunk ∧
    metadata document !! "source"
      = Some "knowledge-base/policies/archive/old.md" ∧
    metadata document !! "doc_type" = Some "policies" ∧
    metadata chunk !! "source"
      = Some "knowledge-base/policies/archive/old.md" ∧
    metadata chunk !! "doc_type" = Some "policies" ∧
    ¬ doc_type_is_parent_folder document ∧
    ¬ doc_type_is_parent_folder chunk.
Proof.
  split; [by vm_compute|]. split; [by vm_compute|].
  eexists _, _. split; [by vm_compute|]. split; [by vm_compute|].
  split; [by vm_compute|]. split; [by vm_compute|].
  split; [by vm_compute|]. split; [by vm_compute|].
  split; intros (source & Hsource & Htype);
    vm_compute in Hsource; injection Hsource as <-;
    vm_compute in Htype; discriminate.
Qed.

(** The sample knowledge base: three markdown files are loaded, the text
    file and the hidden folder are not, and the nested file is tagged with
    its first-level folder. *)
Example ingest_two_folder_kb :
  (Ingest.ingest whole_text two_folder_kb []).1 = Ok ([0; 1; 2], [3; 4; 5]) ∧
  (λ d, (metadata d !! "source", metadata d !! "doc_type"))
    <$> (Ingest.ingest whole_text two_folder_kb []).2
  = [(Some "knowledge-base/policies/leave.md", Some "policies");
     (Some "knowledge-base/policies/archive/old.md", Some "policies");
     (Some "knowledge-base/faq/faq.md", Some "faq");
     (Some "knowledge-base/policies/leave.md", Some "policies");
     (Some "knowledge-base/policies/archive/old.md", Some "policies");
     (Some "knowledge-base/faq/faq.md", Some "faq")].
Proof. split; by vm_compute. Qed.

(** A folder nested under a first-level folder of the same name: here
    the first-level folder and the parent folder have the same name. *)
Example nested_folder_of_the_same_name :
  (λ d, (metadata d !! "source", metadata d !! "doc_type"))
    <$> (Ingest.load_documents same_name_kb []).2
  = [(Some "knowledge-base/policies/policies/x.md", Some "policies")] ∧
  Path.parent_folder "knowledge-base/policies/policies/x.md" = "policies".
Proof. split; by vm_compute. Qed.

(** A folder's own files are loaded before those of its sub-folders. *)
Example own_files_before_sub_folders :
  fst <$> Ingest.rglob_md "kb"
            (Dir "kb" [Dir "sub" [File "b.md" "b"]; File "a.md" "a"])
  = ["kb/a.md"; "kb/sub/b.md"].
Proof. reflexivity. Qed.

(** A markdown file that cannot be read, or a regular file directly under
    the knowledge-base root, makes the loop raise. *)
Example load_raises :
  is_Ok (Ingest.load_documents unreadable_kb []).1 = false ∧
  is_Ok (Ingest.load_documents
           [Dir "knowledge-base" [File "README.md" "about"]] []).1 = false.
Proof. split; reflexivity. Qed.

(** ** A missing knowledge-base directory *)

Lemma scandir_missing (cwd : list node) (d : string) :
  entry_exists cwd d = false → scandir cwd d = None.
Proof.
  unfold entry_exists, scandir. intros Hex.
  destruct (find _ cwd) as [n|] eqn:Hfind; [|done].
  apply find_some in Hfind as [Hin Hname].
  assert (existsb (λ n, String.eqb (node_name n) d) cwd = true) as Htrue.
  { apply existsb_exists. by exists n. }
  by rewrite Hex in Htrue.
Qed.

(** The same holds when [knowledge-base] is a regular file: [glob.glob]
    returns the empty list for whatever it cannot list. *)
Lemma ingest_unlisted_root (split_text : string → list string)
    (cwd : list node) (h : list Document) :
  scandir cwd Ingest.knowledge_base = None →
  Ingest.ingest split_text cwd h = (Ok ([], []), h).
Proof.
  intros Hscan. unfold Ingest.ingest, Ingest.load_documents, Ingest.folders,
    glob_star. by rewrite Hscan.
Qed.

(** C8, as amended.  If the knowledge-base root directory does not exist,
    [glob.glob] finds no folders and the cell completes without raising:
    the document set is empty, there are no chunks, and no object is
    created. *)
Theorem missing_root_gives_empty_corpus (split_text : string → list string)
    (cwd : list node) (h : list Document) :
  entry_exists cwd Ingest.knowledge_base = false →
  Ingest.folders cwd = [] ∧
  Ingest.load_documents cwd h = (Ok [], h) ∧
  Ingest.ingest split_text cwd h = (Ok ([], []), h).
Proof.
  intros Hscan%scandir_missing. split; [|split].
  - unfold Ingest.folders, glob_star. by rewrite Hscan.
  - unfold Ingest.load_documents, Ingest.folders, glob_star. by rewrite Hscan.
  - by apply ingest_unlisted_root.
Qed.

Lemma missing_root_gives_empty_corpus_witness :
  entry_exists no_kb Ingest.knowledge_base = false ∧
  Ingest.folders no_kb = [] ∧
  Ingest.load_documents no_kb [] = (Ok [], []) ∧
  Ingest.ingest whole_text no_kb [] = (Ok ([], []), []).
Proof.
  split; [reflexivity|].
  apply (missing_root_gives_empty_corpus whole_text no_kb []). reflexivity.
Defined.

(** C8 as stated fails: in an empty working directory the cell returns
    normally with no documents and no chunks; nothing is raised. *)
Lemma missing_root_does_not_abort :
  entry_exists [] Ingest.knowledge_base = false ∧
  Ingest.ingest whole_text [] [] = (Ok ([], []), []) ∧
  ¬ ∃ e h', Ingest.ingest whole_text [] [] = (Raise e, h').
Proof.
  split; [reflexivity|]. split; [reflexivity|].
  intros (e & h' & Hrun). discriminate.
Qed.

(** ** [add_metadata] *)

(** C10.  For a loaded document, [add_metadata(doc, doc_type)] returns the
    reference it was given; afterwards the document's metadata has
    [doc_type] under the key ["doc_type"], every other key (the source path
    among them) reads as before, the page content is unchanged, and no
    other object is touched. *)
Theorem add_metadata_frame (h : list Document) (doc : nat) (d : Document)
    (doc_type : string) :
  h !! doc = Some d →
  ∃ h' d',
    Ingest.add_metadata doc doc_type h = (Ok doc, h') ∧
    h' !! doc = Some d' ∧
    metadata d' !! "doc_type" = Some doc_type ∧
    (∀ key, key ≠ "doc_type" → metadata d' !! key = metadata d !! key) ∧
    metadata d' !! "source" = metadata d !! "source" ∧
    page_content d' = page_content d ∧
    length h' = length h ∧
    (∀ r, r ≠ doc → h' !! r = h !! r).
Proof.
  intros Hd. eexists _, _. split; [reflexivity|].
  split; [by rewrite list_lookup_alter_eq, Hd|]. simpl.
  split; [by rewrite lookup_insert_eq|].
  split; [by intros key Hkey; rewrite lookup_insert_ne|].
  split; [by rewrite lookup_insert_ne|].
  split; [done|]. split; [by rewrite length_alter|].
  intros r Hr. by rewrite list_lookup_alter_ne.
Qed.

Lemma add_metadata_frame_witness :
  loaded_heap !! 0 = Some leave_doc ∧
  ∃ h' d',
    Ingest.add_metadata 0 "policies" loaded_heap = (Ok 0, h') ∧
    h' !! 0 = Some d' ∧
    metadata d' !! "doc_type" = Some "policies" ∧
    (∀ key, key ≠ "doc_type" →
       metadata d' !! key = metadata leave_doc !! key) ∧
    metadata d' !! "source" = metadata leave_doc !! "source" ∧
    page_content d' = page_content leave_doc ∧
    length h' = length loaded_heap ∧
    (∀ r, r ≠ 0 → h' !! r = loaded_heap !! r).
Proof.
  split; [reflexivity|].
  apply (add_metadata_frame loaded_heap 0 leave_doc "policies").
  reflexivity.
Defined.

(** ** Rebuilding the vector store *)

Section StoreFacts.
Import Store.
Context {vector : Type}.
Variable embed : string → result vector.

Lemma embed_documents_Ok (chunks : list Document) :
  (∀ d, d ∈ chunks → ∃ v, embed (page_content d) = Ok v) →
  ∃ es, embed_documents embed chunks = Ok es ∧
        length es = length chunks ∧
        chunk_text <$> es = page_content <$> chunks ∧
        chunk_metadata <$> es = metadata <$> chunks.
Proof.
  induction chunks as [|d chunks IH]; intros Hembed; simpl.
  - by exists [].
  - destruct (Hembed d) as [v ->]; [left|].
    destruct IH as (es & -> & Hlen & Htext & Hmeta).
    { intros d' Hd'. apply Hembed. by right. }
    eexists. split; [done|].
    rewrite !fmap_cons, Htext, Hmeta. simpl. by rewrite Hlen.
Qed.

(** Inserting under fresh identifiers grows the collection by one entry
    per chunk and leaves the earlier entries alone. *)
Lemma insert_entries_spec (es : list (@EmbeddedChunk vector)) :
  ∀ c : @collection vector,
  fresh_above c →
  let c' := foldl insert_entry c es in
  fresh_above c' ∧
  next_id c' = next_id c + length es ∧
  size (entries c') = size (entries c) + length es ∧
  (∀ i, i < length es → entries c' !! (next_id c + i) = es !! i) ∧
  (∀ j, j < next_id c → entries c' !! j = entries c !! j).
Proof.
  induction es as [|e es IH]; intros c Hfresh; simpl.
  - split; [done|]. split; [lia|]. split; [lia|]. split; [|done].
    intros i Hi. lia.
  - destruct (IH (insert_entry c e)) as (Hf & Hnext & Hsize & Hnew & Hold).
    { intros i Hi. simpl in *. rewrite lookup_insert_ne by lia.
      apply Hfresh. lia. }
    simpl in *. split; [done|]. split; [lia|]. split.
    + rewrite Hsize, map_size_insert_None; [lia|]. by apply Hfresh.
    + split.
      * intros [|i] Hi.
        -- rewrite Nat.add_0_r, Hold by lia. by rewrite lookup_insert_eq.
        -- replace (next_id c + S i) with (S (next_id c) + i) by lia.
           apply Hnew. lia.
      * intros j Hj. rewrite Hold by lia. by rewrite lookup_insert_ne by lia.
Qed.

Lemma fresh_above_empty : fresh_above (@empty_collection vector).
Proof. intros i _. apply lookup_empty. Qed.

(** After the guard the store opens on an empty collection, whatever was
    on disk before. *)
Lemma rebuild_run (chunks : list Document)
    (es : list (@EmbeddedChunk vector)) (d : disk) :
  embed_documents embed chunks = Ok es →
  rebuild embed chunks d
  = (Ok (size (entries (foldl insert_entry empty_collection es))),
     Persisted (Some (foldl insert_entry empty_collection es))).
Proof.
  intros Hes. unfold rebuild, from_documents.
  destruct d as [|[c|]]; unfold bind; simpl; rewrite Hes; simpl; done.
Qed.

(** A failing embedding aborts the rebuild. *)
Lemma rebuild_embedding_failure (chunks : list Document) (e : exn)
    (d : disk) :
  embed_documents embed chunks = Raise e →
  (rebuild embed chunks d).1 = Raise e.
Proof.
  intros Hes. unfold rebuild, from_documents.
  destruct d as [|[c|]]; unfold bind; simpl; rewrite Hes; simpl; done.
Qed.
End StoreFacts.

(** C4.  Whatever the directory held before, when every chunk embeds, the
    cell's reset, add and count report exactly the number of chunks, the
    collection holds exactly the chunks' texts, one entry each, and running
    the cell again on the result reports the same count and leaves the same
    collection. *)
Theorem rebuild_count_is_number_of_chunks {vector : Type}
    (embed : string → result vector) (chunks : list Document)
    (d : Store.disk) :
  (∀ c, c ∈ chunks → ∃ v, embed (page_content c) = Ok v) →
  ∃ stored,
    Store.rebuild embed chunks d
      = (Ok (length chunks), Store.Persisted (Some stored)) ∧
    Store.rebuild embed chunks (Store.Persisted (Some stored))
      = (Ok (length chunks), Store.Persisted (Some stored)) ∧
    size (Store.entries stored) = length chunks ∧
    ∀ i, (Store.chunk_text <$> Store.entries stored !! i)
           = (page_content <$> chunks !! i).
Proof.
  intros Hembed.
  destruct (embed_documents_Ok embed chunks Hembed)
    as (es & Hes & Hlen & Htext & _).
  destruct (insert_entries_spec es Store.empty_collection fresh_above_empty)
    as (Hfresh & Hnext & Hsize & Hnew & _).
  simpl in *. rewrite map_size_empty in Hsize. simpl in Hsize.
  exists (foldl Store.insert_entry Store.empty_collection es).
  rewrite !(rebuild_run embed chunks es) by done.
  rewrite Hsize, Hlen. split; [done|]. split; [done|]. split; [done|].
  intros i. destruct (decide (i < length es)) as [Hi|Hi].
  - rewrite (Hnew i Hi). rewrite <- !list_lookup_fmap. by rewrite Htext.
  - rewrite Hfresh by lia. rewrite lookup_ge_None_2 by lia. done.
Qed.

Lemma rebuild_count_is_number_of_chunks_witness :
  (∀ c, c ∈ loaded_heap → ∃ v, length_embed (page_content c) = Ok v) ∧
  ∃ stored,
    Store.rebuild length_embed loaded_heap stale_disk
      = (Ok (length loaded_heap), Store.Persisted (Some stored)) ∧
    Store.rebuild length_embed loaded_heap (Store.Persisted (Some stored))
      = (Ok (length loaded_heap), Store.Persisted (Some stored)) ∧
    size (Store.entries stored) = length loaded_heap ∧
    ∀ i, (Store.chunk_text <$> Store.entries stored !! i)
           = (page_content <$> loaded_heap !! i).
Proof.
  assert (∀ c, c ∈ loaded_heap → ∃ v, length_embed (page_content c) = Ok v)
    as Hembed by (intros c _; eexists; reflexivity).
  split; [exact Hembed|].
  exact (rebuild_count_is_number_of_chunks length_embed loaded_heap
           stale_disk Hembed).
Defined.

Example rebuild_over_stale_store :
  Store.rebuild length_embed loaded_heap stale_disk
  = (Ok 2,
     Store.Persisted
       (Some (foldl Store.insert_entry Store.empty_collection
                [Store.mkEmbeddedChunk (page_content leave_doc)
                   (metadata leave_doc) 12;
                 Store.mkEmbeddedChunk (page_content faq_doc)
                   (metadata faq_doc) 21]))).
Proof. by vm_compute. Qed.

(** ** Querying the vector store *)

Section QueryFacts.
Import Store.
Context {vector D : Type}.
Variable distance : vector → vector → D.
Variable le : relation D.
Context `{!∀ x y, Decision (le x y)} `{!Total le} `{!Transitive le}.

#[local] Instance nearer_total (v : vector) : Total (nearer distance le v).
Proof. intros a b. unfold nearer. apply total; apply _. Qed.

#[local] Instance nearer_trans (v : vector) :
  Transitive (nearer distance le v).
Proof. intros a b c. unfold nearer. apply transitivity. Qed.

Lemma stored_length (c : @collection vector) :
  length (stored c) = size (entries c).
Proof. unfold stored. by rewrite length_fmap, length_map_to_list. Qed.

(** The query result is a prefix of the stored entries sorted by distance;
    what it leaves out is at least as far as anything it returns. *)
Lemma query_spec (c : @collection vector) (v : vector) (k : nat) :
  length (query distance le c v k) = k `min` size (entries c) ∧
  StronglySorted (nearer distance le v) (query distance le c v k) ∧
  ∃ rest, query distance le c v k ++ rest ≡ₚ stored c ∧
    ∀ a b, a ∈ query distance le c v k → b ∈ rest →
           nearer distance le v a b.
Proof.
  unfold query.
  set (sorted := merge_sort (nearer distance le v) (stored c)).
  assert (StronglySorted (nearer distance le v) sorted) as Hsorted
    by (apply StronglySorted_merge_sort; apply _).
  assert (sorted ≡ₚ stored c) as Hperm by apply merge_sort_Permutation.
  assert (length sorted = size (entries c)) as Hlen
    by (by rewrite Hperm, stored_length).
  rewrite <- (take_drop k sorted) in Hsorted, Hperm.
  split; [|split].
  - by rewrite length_take, Hlen.
  - by eapply StronglySorted_app_1_l.
  - exists (drop k sorted). split; [done|].
    intros a b Ha Hb. by eapply StronglySorted_app_1_elem_of.
Qed.
End QueryFacts.

(** C5.  For every query vector [v] and every [k], also one larger than the
    store, [query(v, k)] returns exactly min(k, store size) results, ordered
    by non-decreasing distance from [v] (every result is at most as far
    from [v] as every result after it); the results are stored entries, and
    every stored entry left out is at least as far as every result. *)
Theorem query_returns_min_k_nearest_first {vector D : Type}
    (distance : vector → vector → D) (le : relation D)
    `{!∀ x y, Decision (le x y)} `{!Total le} `{!Transitive le}
    (c : Store.collection) (v : vector) (k : nat) :
  length (Store.query distance le c v k) = k `min` size (Store.entries c) ∧
  StronglySorted (Store.nearer distance le v) (Store.query distance le c v k) ∧
  ∃ rest, Store.query distance le c v k ++ rest ≡ₚ Store.stored c ∧
    ∀ a b, a ∈ Store.query distance le c v k → b ∈ rest →
           Store.nearer distance le v a b.
Proof. apply query_spec; apply _. Qed.

Lemma query_returns_min_k_nearest_first_witness :
  length (Store.query gap Nat.le sample_collection 19 25)
    = 25 `min` size (Store.entries sample_collection) ∧
  StronglySorted (Store.nearer gap Nat.le 19)
    (Store.query gap Nat.le sample_collection 19 25) ∧
  ∃ rest,
    Store.query gap Nat.le sample_collection 19 25 ++ rest
      ≡ₚ Store.stored sample_collection ∧
    ∀ a b, a ∈ Store.query gap Nat.le sample_collection 19 25 → b ∈ rest →
           Store.nearer gap Nat.le 19 a b.
Proof.
  exact (query_returns_min_k_nearest_first gap Nat.le sample_collection 19 25).
Defined.

(** The scenario of the spec: a store of 100 vectors answers k = 25 with 25
    results and k = 500 with 100. *)
Lemma query_hundred_vectors {vector D : Type}
    (distance : vector → vector → D) (le : relation D)
    `{!∀ x y, Decision (le x y)} (c : Store.collection) (v : vector) :
  size (Store.entries c) = 100 →
  length (Store.query distance le c v 25) = 25 ∧
  length (Store.query distance le c v 500) = 100.
Proof.
  intros Hsize. unfold Store.query. rewrite !length_take.
  rewrite (Permutation_length (merge_sort_Permutation _ _)).
  unfold Store.stored. rewrite length_fmap, length_map_to_list, Hsize. lia.
Qed.

Example query_sample_nearest_two :
  Store.chunk_text <$> Store.query gap Nat.le sample_collection 19 2
  = ["Questions and answers"; "Old leave policy"].
Proof. vm_compute. reflexivity. Qed.

Example query_sample_capped :
  Store.chunk_text <$> Store.query gap Nat.le sample_collection 19 25
  = ["Questions and answers"; "Old leave policy"; "Leave policy"].
Proof. vm_compute. reflexivity. Qed.

(** ** The chat function *)

(** C9.  Whatever the chain is and whatever state it is in, [chat] run on
    the same question with two different UI histories gives the same
    result and leaves the same state: the [history] argument is never
    read. *)
Theorem chat_ignores_history {S : Type}
    (invoke : gmap string Chat.pyval → M S (gmap string Chat.pyval))
    (question : string) (history1 history2 : list (gmap string string))
    (s : S) :
  Chat.chat invoke question history1 s = Chat.chat invoke question history2 s.
Proof. reflexivity. Qed.

(** [chat] has no handler and no effect of its own: what the chain raises
    reaches the caller, with the state as the chain left it. *)
Lemma chat_surfaces_failure {S : Type}
    (invoke : gmap string Chat.pyval → M S (gmap string Chat.pyval))
    (question : string) (ui : list (gmap string string)) (s s' : S)
    (e : exn) :
  invoke {[ "question" := Chat.Str question ]} s = (Raise e, s') →
  Chat.chat invoke question ui s = (Raise e, s').
Proof. intros Hrun. unfold Chat.chat, bind. by rewrite Hrun. Qed.

Lemma chat_returns_answer {S : Type}
    (invoke : gmap string Chat.pyval → M S (gmap string Chat.pyval))
    (question : string) (ui : list (gmap string string)) (s s' : S)
    (result : gmap string Chat.pyval) (a : Chat.pyval) :
  invoke {[ "question" := Chat.Str question ]} s = (Ok result, s') →
  result !! "answer" = Some a →
  Chat.chat invoke question ui s = (Ok a, s').
Proof. intros Hrun Ha. unfold Chat.chat, bind. by rewrite Hrun, Ha. Qed.

Section ChatFacts.
Import Chat.
Context {vector chunk : Type}.
Variable embed_query : string → result vector.
Variable query : vector → nat → list chunk.
Variable call_llm : @prompt chunk → result string.
Variable k : nat.

Lemma receive_question_singleton (q : string) :
  receive_question {[ "question" := Str q ]} = Ok q.
Proof. unfold receive_question. by rewrite lookup_singleton_eq. Qed.

(** One turn of [chat] through the orchestrator, step by step. *)
Lemma chat_run (q : string) (ui : list (gmap string string))
    (m : list ConversationTurn) :
  chat (invoke embed_query query call_llm k) q ui m
  = match embed_query q with
    | Raise e => (Raise e, m)
    | Ok v =>
        match call_llm (mkPrompt (query v k) (history m) q) with
        | Raise e => (Raise e, m)
        | Ok a => (Ok (Str a), append q a m)
        end
    end.
Proof.
  unfold chat, invoke, bind, lift, get, modify, ret.
  rewrite receive_question_singleton.
  destruct (embed_query q) as [v|e]; [|done].
  destruct (call_llm _) as [a|e]; [|done].
  rewrite lookup_insert_ne by done. rewrite lookup_insert_ne by done.
  by rewrite lookup_singleton_eq.
Qed.

(** Whichever step fails, the memory is as it was. *)
Lemma chat_failure_keeps_memory q ui m e m' :
  chat (invoke embed_query query call_llm k) q ui m = (Raise e, m') →
  m' = m.
Proof.
  rewrite chat_run. destruct (embed_query q) as [v|e1]; [|congruence].
  destruct (call_llm _) as [a|e2]; congruence.
Qed.

(** A successful turn appends exactly its own (question, answer). *)
Lemma chat_success_appends q ui m r m' :
  chat (invoke embed_query query call_llm k) q ui m = (Ok r, m') →
  ∃ a, r = Str a ∧ m' = append q a m.
Proof.
  rewrite chat_run. destruct (embed_query q) as [v|e1]; [|congruence].
  destruct (call_llm _) as [a|e2]; [|congruence].
  intros [= <- <-]. by exists a.
Qed.

Lemma session_appends (questions : list string) : ∀ m answers m',
  session embed_query query call_llm k questions m = (Ok answers, m') →
  ∃ texts, answers = Str <$> texts ∧ length texts = length questions ∧
    m' = append_all (zip questions texts) m.
Proof.
  induction questions as [|q questions IH]; intros m answers m' Hrun.
  - injection Hrun as <- <-. by exists [].
  - unfold session in Hrun. simpl in Hrun.
    apply bind_Ok in Hrun as (r & m1 & Hchat & Hrun).
    apply bind_Ok in Hrun as (rs & m2 & Hrest & Hret).
    injection Hret as <- <-.
    apply chat_success_appends in Hchat as (a & -> & ->).
    apply IH in Hrest as (texts & -> & Hlen & ->).
    exists (a :: texts). simpl. by rewrite Hlen.
Qed.
End ChatFacts.

(** C7.  When the turn reaches CALL_LLM and the chat-completion call raises
    [e], [chat] raises [e] to its caller and the Conversation Memory is
    exactly what it was before the turn. *)
Theorem failed_llm_call_records_no_turn {vector chunk : Type}
    (embed_query : string → result vector)
    (query : vector → nat → list chunk)
    (call_llm : @Chat.prompt chunk → result string) (k : nat)
    (q : string) (ui : list (gmap string string))
    (m : list Chat.ConversationTurn) (v : vector) (e : exn) :
  embed_query q = Ok v →
  call_llm (Chat.mkPrompt (query v k) (Chat.history m) q) = Raise e →
  Chat.chat (Chat.invoke embed_query query call_llm k) q ui m = (Raise e, m).
Proof. intros Hv Hllm. by rewrite chat_run, Hv, Hllm. Qed.

Lemma failed_llm_call_records_no_turn_witness :
  Chat.chat (Chat.invoke length_embed top_chunks llm_down 25)
    "Who approves leave?" [] one_turn
  = (Raise (ServiceError "chat completion failed"), one_turn).
Proof.
  apply (failed_llm_call_records_no_turn length_embed top_chunks llm_down 25
           "Who approves leave?" [] one_turn 19); reflexivity.
Defined.

Example session_two_turns :
  Chat.session length_embed top_chunks (λ p, Ok (Chat.new_question p)) 4
    ["first"; "second"] []
  = (Ok [Chat.Str "first"; Chat.Str "second"],
     [Chat.mkTurn "first" "first" 0; Chat.mkTurn "second" "second" 1]).
Proof. by vm_compute. Qed.

(** ** Conversation Memory *)

Lemma append_all_length (turns : list (string * string)) : ∀ m,
  length (append_all turns m) = length m + length turns.
Proof.
  induction turns as [|[q a] turns IH]; intros m; simpl; [lia|].
  unfold append_all in *. simpl. rewrite IH. unfold Chat.append.
  rewrite length_app. simpl. lia.
Qed.

Lemma append_all_exchanges (turns : list (string * string)) : ∀ m,
  exchange <$> append_all turns m = (exchange <$> m) ++ turns.
Proof.
  induction turns as [|[q a] turns IH]; intros m; simpl.
  - by rewrite app_nil_r.
  - unfold append_all in *. simpl. rewrite IH. unfold Chat.append.
    rewrite fmap_app. simpl. by rewrite <- app_assoc.
Qed.

Lemma append_all_ordinals (turns : list (string * string)) : ∀ m,
  Chat.ordinal <$> append_all turns m
  = (Chat.ordinal <$> m) ++ seq (length m) (length turns).
Proof.
  induction turns as [|[q a] turns IH]; intros m; simpl.
  - by rewrite app_nil_r.
  - unfold append_all in *. simpl. rewrite IH. unfold Chat.append.
    rewrite fmap_app, length_app. simpl.
    rewrite <- app_assoc, Nat.add_1_r. done.
Qed.

Lemma append_all_prefix (later : list (string * string)) : ∀ m,
  m `prefix_of` append_all later m.
Proof.
  induction later as [|[q a] later IH]; intros m; [done|].
  unfold append_all in *. simpl. etrans; [|apply IH].
  unfold Chat.append. by apply prefix_app_r.
Qed.

(** C6.  Appending N (question, answer) turns to an empty Conversation
    Memory yields a history of length N that holds exactly those turns in
    append order, numbered 0 to N-1; whatever is appended later, that
    history stays a prefix of the new one, so no earlier turn is removed or
    reordered. *)
Theorem history_is_the_appended_turns (turns later : list (string * string)) :
  length (Chat.history (append_all turns [])) = length turns ∧
  exchange <$> Chat.history (append_all turns []) = turns ∧
  Chat.ordinal <$> Chat.history (append_all turns []) = seq 0 (length turns) ∧
  Chat.history (append_all turns [])
    `prefix_of` Chat.history (append_all later (append_all turns [])).
Proof.
  unfold Chat.history.
  rewrite append_all_length, append_all_exchanges, append_all_ordinals.
  split; [done|]. split; [done|]. split; [done|].
  apply append_all_prefix.
Qed.

(** * Properties of the rest of the notebook *)

(** ** The API key at startup *)


(** ** The folders the loop iterates over *)

Lemma folders_paths (cwd : list node) (folder : string * node) :
  folder ∈ Ingest.folders cwd →
  folder.1 = Path.join Ingest.knowledge_base (node_name folder.2) ∧
  is_hidden (node_name folder.2) = false ∧
  ∃ children, scandir cwd Ingest.knowledge_base = Some children ∧
              folder.2 ∈ children.
Proof.
  unfold Ingest.folders, glob_star.
  destruct (scandir cwd Ingest.knowledge_base) as [children|];
    [|by intros ?%elem_of_nil].
  intros (n & -> & Hn)%list_elem_of_fmap. simpl.
  apply list_elem_of_In, filter_In in Hn as [Hn Hvis].
  split; [done|]. split; [by apply negb_true_iff in Hvis|].
  exists children. split; [done|]. by apply list_elem_of_In.
Qed.

Lemma scandir_children_wf (cwd children : list node) (d : string) (n : node) :
  wf_fs cwd = true → scandir cwd d = Some children → n ∈ children →
  Path.valid_name (node_name n) = true.
Proof.
  unfold scandir, wf_fs. intros Hwf Hscan Hn.
  destruct (find _ cwd) as [[| |name ch]|] eqn:Hfind; try done.
  injection Hscan as ->. apply find_some in Hfind as [Hin _].
  rewrite forallb_forall in Hwf. specialize (Hwf _ Hin). simpl in Hwf.
  apply andb_true_iff in Hwf as [_ Hch]. rewrite forallb_forall in Hch.
  apply list_elem_of_In in Hn. specialize (Hch _ Hn).
  destruct n; simpl in *; by apply andb_true_iff in Hch as [? _].
Qed.

(** X2.  For every folder [glob.glob("knowledge-base/*")] returns,
    [os.path.basename(folder)] gives back the name of the directory entry
    the path was made from: the [doc_type] of the loop is a real entry
    name, not empty, without a separator and not hidden. *)
Theorem folder_basename_is_entry_name (cwd : list node)
    (folder : string * node) :
  wf_fs cwd = true →
  folder ∈ Ingest.folders cwd →
  Path.basename folder.1 = node_name folder.2 ∧
  Path.valid_name (Path.basename folder.1) = true ∧
  is_hidden (Path.basename folder.1) = false.
Proof.
  intros Hwf (Hpath & Hvis & children & Hscan & Hin)%folders_paths.
  pose proof (scandir_children_wf _ _ _ _ Hwf Hscan Hin) as Hvalid.
  rewrite Hpath, basename_join by by apply valid_name_no_sep. done.
Qed.

Lemma folder_basename_is_entry_name_witness :
  wf_fs two_folder_kb = true ∧
  ("knowledge-base/faq", Dir "faq" [File "faq.md" "Questions and answers"])
    ∈ Ingest.folders two_folder_kb ∧
  Path.basename "knowledge-base/faq" = "faq" ∧
  Path.valid_name (Path.basename "knowledge-base/faq") = true ∧
  is_hidden (Path.basename "knowledge-base/faq") = false.
Proof.
  assert (("knowledge-base/faq",
           Dir "faq" [File "faq.md" "Questions and answers"])
            ∈ Ingest.folders two_folder_kb) as Hin
    by (right; left).
  split; [reflexivity|]. split; [exact Hin|].
  exact (folder_basename_is_entry_name two_folder_kb _ eq_refl Hin).
Defined.

(** ** Tagging twice *)

(** X7.  Tagging a document twice leaves it as if only the second tag had
    been written, on every heap: the last write wins, and tagging with the
    same type again changes nothing. *)
Theorem add_metadata_last_write_wins (doc : nat) (first second : string)
    (h : list Document) :
  (Ingest.add_metadata doc first ;;; Ingest.add_metadata doc second) h
  = Ingest.add_metadata doc second h.
Proof.
  unfold Ingest.add_metadata, bind, modify, ret. f_equal.
  apply list_eq. intros i. destruct (decide (i = doc)) as [->|Hi].
  - rewrite !list_lookup_alter_eq. destruct (h !! doc) as [d|]; [|done].
    simpl. unfold set_metadata. simpl. by rewrite insert_insert_eq.
  - by rewrite !list_lookup_alter_ne.
Qed.

(** ** A rebuild and what was on disk before *)

Lemma rebuild_failure_run {vector : Type} (embed : string → result vector)
    (chunks : list Document) (e : exn) (d : Store.disk) :
  Store.embed_documents embed chunks = Raise e →
  Store.rebuild embed chunks d
  = (Raise e, Store.Persisted (Some Store.empty_collection)).
Proof.
  intros Hes. unfold Store.rebuild, Store.from_documents.
  destruct d as [|[c|]]; unfold bind; simpl; rewrite Hes; simpl; done.
Qed.

(** X8.  The outcome of the rebuild cell, the count or the error it raises
    and the store it leaves, does not depend on what the directory held
    before: nothing of an earlier store survives a rebuild, whether it
    succeeds or fails. *)
Theorem rebuild_forgets_previous_store {vector : Type}
    (embed : string → result vector) (chunks : list Document)
    (d1 d2 : Store.disk) :
  Store.rebuild embed chunks d1 = Store.rebuild embed chunks d2.
Proof.
  destruct (Store.embed_documents embed chunks) as [es|e] eqn:Hes.
  - by rewrite !(rebuild_run embed chunks es).
  - by rewrite !(rebuild_failure_run embed chunks e).
Qed.

(** ** How [chat] can fail *)

(** Over the conversation chain, [chat] raises only what the
    embedding service or the chat-completion service raised for this
    question; its own dictionary accesses never fail, and in either case
    the memory is as it was. *)
Theorem chat_fails_only_with_a_service {vector chunk : Type}
    (embed_query : string → result vector)
    (query : vector → nat → list chunk)
    (call_llm : @Chat.prompt chunk → result string) (k : nat)
    (q : string) (ui : list (gmap string string))
    (m m' : list Chat.ConversationTurn) (e : exn) :
  Chat.chat (Chat.invoke embed_query query call_llm k) q ui m = (Raise e, m') →
  m' = m ∧
  (embed_query q = Raise e ∨
   ∃ v, embed_query q = Ok v ∧
        call_llm (Chat.mkPrompt (query v k) (Chat.history m) q) = Raise e).
Proof.
  rewrite chat_run. destruct (embed_query q) as [v|e1].
  - destruct (call_llm _) as [a|e2] eqn:Hllm; [done|].
    intros [= <- <-]. split; [done|]. right. by exists v.
  - intros [= <- <-]. split; [done|]. by left.
Qed.

Lemma chat_fails_only_with_a_service_witness :
  one_turn = one_turn ∧
  (length_embed "Who approves leave?"
     = Raise (ServiceError "chat completion failed") ∨
   ∃ v, length_embed "Who approves leave?" = Ok v ∧
        llm_down (Chat.mkPrompt (top_chunks v 25) (Chat.history one_turn)
                    "Who approves leave?")
        = Raise (ServiceError "chat completion failed")).
Proof.
  apply (chat_fails_only_with_a_service length_embed top_chunks llm_down 25
           "Who approves leave?" [] one_turn one_turn
           (ServiceError "chat completion failed")).
  reflexivity.
Defined.

(** ** The memory over any sequence of widget calls *)

Lemma well_numbered_append (q a : string) (m : list Chat.ConversationTurn) :
  well_numbered m → well_numbered (Chat.append q a m).
Proof.
  unfold well_numbered, Chat.append. intros Hm.
  rewrite fmap_app, length_app, Hm. simpl.
  by rewrite Nat.add_1_r, seq_S.
Qed.

(** However many messages the widget submits and whatever history it
    passes, the memory afterwards holds the turns it held before followed
    by one turn for each call that returned an answer, in call order, and
    nothing for a call that raised; turns numbered from 0 stay numbered
    from 0. *)
Theorem served_calls_record_answered_turns {vector chunk : Type}
    (embed_query : string → result vector)
    (query : vector → nat → list chunk)
    (call_llm : @Chat.prompt chunk → result string) (k : nat)
    (calls : list (string * list (gmap string string)))
    (m : list Chat.ConversationTurn) :
  let served :=
    Widget.serve (Chat.chat (Chat.invoke embed_query query call_llm k))
      calls m in
  length served.1 = length calls ∧
  m `prefix_of` served.2 ∧
  Chat.question <$> served.2
    = (Chat.question <$> m) ++ answered calls served.1 ∧
  (well_numbered m → well_numbered served.2).
Proof.
  simpl. revert m. induction calls as [|[q ui] calls IH]; intros m; simpl.
  - unfold answered. simpl. by rewrite app_nil_r.
  - rewrite chat_run.
    assert (∀ r m1,
      (let '(rs, s2) :=
         Widget.serve (Chat.chat (Chat.invoke embed_query query call_llm k))
           calls m1 in (r :: rs, s2))
      = (r :: (Widget.serve
                 (Chat.chat (Chat.invoke embed_query query call_llm k))
                 calls m1).1,
         (Widget.serve
            (Chat.chat (Chat.invoke embed_query query call_llm k))
            calls m1).2)) as Hpair
      by (intros r m1; by destruct (Widget.serve _ calls m1)).
    destruct (embed_query q) as [v|e]; [destruct (call_llm _) as [a|e]|];
      rewrite Hpair; simpl.
    + destruct (IH (Chat.append q a m)) as (Hlen & Hpre & Hqs & Hnum).
      split; [by rewrite Hlen|]. split.
      { etrans; [|exact Hpre]. by apply prefix_app_r. }
      split.
      { rewrite Hqs. unfold Chat.append, answered. rewrite fmap_app. simpl.
        by rewrite <- app_assoc. }
      intros Hm. by apply Hnum, well_numbered_append.
    + destruct (IH m) as (Hlen & Hpre & Hqs & Hnum).
      split; [by rewrite Hlen|]. done.
    + destruct (IH m) as (Hlen & Hpre & Hqs & Hnum).
      split; [by rewrite Hlen|]. done.
Qed.

Example serve_with_a_failure :
  Widget.serve (Chat.chat (Chat.invoke picky_embed top_chunks echo_llm 25))
    [("first", []); ("", []); ("third", [])] []
  = ([Ok (Chat.Str "first"); Raise (ServiceError "empty input");
      Ok (Chat.Str "third")],
     [Chat.mkTurn "first" "first" 0; Chat.mkTurn "third" "third" 1]).
Proof. by vm_compute. Qed.

(** ** Retrieval after a rebuild *)

Lemma embed_documents_embedded {vector : Type}
    (embed : string → result vector) (chunks : list Document) :
  ∀ es, Store.embed_documents embed chunks = Ok es →
    Forall2 (λ c e, Store.chunk_text e = page_content c ∧
                    Store.chunk_metadata e = metadata c ∧
                    embed (page_content c) = Ok (Store.chunk_vector e))
      chunks es.
Proof.
  induction chunks as [|c chunks IH]; intros es Hes; simpl in Hes.
  - injection Hes as <-. constructor.
  - destruct (embed (page_content c)) as [v|e] eqn:Hv; [|done].
    destruct (Store.embed_documents embed chunks) as [es'|e]; [|done].
    injection Hes as <-. constructor; [done|by apply IH].
Qed.

Lemma stored_after_insert {vector : Type}
    (es : list (@Store.EmbeddedChunk vector)) (e : Store.EmbeddedChunk) :
  e ∈ Store.stored (foldl Store.insert_entry Store.empty_collection es) →
  e ∈ es.
Proof.
  unfold Store.stored. intros ([i e'] & -> & Hie)%list_elem_of_fmap.
  apply elem_of_map_to_list in Hie. simpl.
  destruct (insert_entries_spec es Store.empty_collection fresh_above_empty)
    as (Hfresh & Hnext & _ & Hnew & _).
  simpl in *. destruct (decide (i < length es)) as [Hi|Hi].
  - rewrite (Hnew i Hi) in Hie. by eapply list_elem_of_lookup_2.
  - rewrite Hfresh in Hie by lia. done.
Qed.

(** After a rebuild in which every chunk embedded, whatever the
    directory held before, a retrieval with any query vector and any k
    returns min(k, number of chunks) results, and each result is one of the
    chunks just ingested: its text, its metadata and the vector the
    embedding service gave for that text.  Nothing from an earlier store can
    be retrieved. *)
Theorem retrieval_returns_current_chunks {vector D : Type}
    (embed : string → result vector)
    (distance : vector → vector → D) (le : relation D)
    `{!∀ x y, Decision (le x y)}
    (chunks : list Document) (d : Store.disk) :
  (∀ c, c ∈ chunks → ∃ v, embed (page_content c) = Ok v) →
  ∃ stored,
    Store.rebuild embed chunks d
      = (Ok (length chunks), Store.Persisted (Some stored)) ∧
    ∀ (v : vector) (k : nat),
      length (Store.query distance le stored v k) = k `min` length chunks ∧
      ∀ e, e ∈ Store.query distance le stored v k →
        ∃ c, c ∈ chunks ∧
             Store.chunk_text e = page_content c ∧
             Store.chunk_metadata e = metadata c ∧
             embed (page_content c) = Ok (Store.chunk_vector e).
Proof.
  intros Hembed.
  destruct (embed_documents_Ok embed chunks Hembed) as (es & Hes & Hlen & _).
  destruct (insert_entries_spec es Store.empty_collection fresh_above_empty)
    as (_ & _ & Hsize & _).
  simpl in Hsize. rewrite map_size_empty in Hsize. simpl in Hsize.
  exists (foldl Store.insert_entry Store.empty_collection es).
  rewrite (rebuild_run embed chunks es d Hes), Hsize, Hlen.
  split; [done|]. intros v k. unfold Store.query. split.
  - rewrite length_take, (Permutation_length (merge_sort_Permutation _ _)).
    by rewrite stored_length, Hsize, Hlen.
  - intros e He%elem_of_take.
    destruct He as (i & He & _). apply list_elem_of_lookup_2 in He.
    rewrite merge_sort_Permutation in He.
    apply stored_after_insert in He.
    apply list_elem_of_lookup_1 in He as [j Hj].
    pose proof (embed_documents_embedded embed chunks es Hes) as Hall.
    destruct (Forall2_lookup_r _ _ _ _ _ Hall Hj) as (c & Hc & Hce).
    exists c. split; [by eapply list_elem_of_lookup_2|done].
Qed.

Lemma retrieval_returns_current_chunks_witness :
  ∃ stored,
    Store.rebuild length_embed loaded_heap stale_disk
      = (Ok (length loaded_heap), Store.Persisted (Some stored)) ∧
    ∀ (v : nat) (k : nat),
      length (Store.query gap Nat.le stored v k)
        = k `min` length loaded_heap ∧
      ∀ e, e ∈ Store.query gap Nat.le stored v k →
        ∃ c, c ∈ loaded_heap ∧
             Store.chunk_text e = page_content c ∧
             Store.chunk_metadata e = metadata c ∧
             length_embed (page_content c) = Ok (Store.chunk_vector e).
Proof.
  apply (retrieval_returns_current_chunks length_embed gap Nat.le
           loaded_heap stale_disk).
  intros c _. eexists. reflexivity.
Defined.
